(** * Rock-paper-scissors core of answers/rps/rps.16.cpp

    Shallow embedding of the move type, the score map, the pairwise and
    batch scoring functions, the [Player] class with its two built-in
    subclasses [Random] and [TitForTat], the shared random move generator,
    and the match loop [play]. *)

From Stdlib Require Import String.
From Stdlib Require Import List ZArith Bool Lia.
Open Scope list_scope.
Import ListNotations.
Open Scope Z_scope.

(** ** Moves and rounds *)

(** [enum Move { Rock, Paper, Scissors };] *)
Inductive Move : Type :=
| Rock
| Paper
| Scissors.

Definition Move_eqb (a b : Move) : bool :=
  match a, b with
  | Rock, Rock | Paper, Paper | Scissors, Scissors => true
  | _, _ => false
  end.

Lemma Move_eqb_spec (a b : Move) : Move_eqb a b = true <-> a = b.
Proof. destruct a, b; simpl; split; congruence. Qed.

(** [struct Round { Move p1, p2; };] *)
Record Round : Type := mkRound { p1 : Move; p2 : Move }.

(** ** The score map

    [std::map<Move, std::map<Move, int> >], filled once by [scoreMap()].
    A [std::map] is modelled as an association list; [find] returns the
    mapped value of the first entry with the key, [None] for [end()]. *)
Definition ScoreMap := list (Move * list (Move * Z)).

Fixpoint find {V : Type} (k : Move) (m : list (Move * V)) : option V :=
  match m with
  | [] => None
  | (k', v) :: m' => if Move_eqb k k' then Some v else find k m'
  end.

Definition scoreMap : ScoreMap :=
  [ (Rock,     [(Rock, 0); (Paper, 1); (Scissors, -1)]);
    (Paper,    [(Rock, -1); (Paper, 0); (Scissors, 1)]);
    (Scissors, [(Rock, 1); (Paper, -1); (Scissors, 0)]) ].

(** [int score(Move m1, Move m2)]:
    [scoreMap().find(m1)->second.find(m2)->second].
    Dereferencing [end()] is undefined in C++; the [None] branches are
    never taken (see [scoreMap_total]) and return 0 here. *)
Definition score (m1 m2 : Move) : Z :=
  match find m1 scoreMap with
  | Some row =>
      match find m2 row with
      | Some v => v
      | None => 0
      end
  | None => 0
  end.

Lemma scoreMap_total (m1 m2 : Move) :
  exists row v, find m1 scoreMap = Some row /\ find m2 row = Some v.
Proof. destruct m1, m2; do 2 eexists; split; reflexivity. Qed.

(** [std::vector<int> score(const std::vector<Round>& rounds)]: push back
    [score(r.p1, r.p2)] for each round, in order. *)
Definition score_rounds_loop (rslt : list Z) (rounds : list Round) : list Z :=
  fold_left (fun acc r => acc ++ [score (p1 r) (p2 r)]) rounds rslt.

Definition score_rounds (rounds : list Round) : list Z :=
  score_rounds_loop [] rounds.

(** ** Random moves

    The pair [mt19937] / [uniform_int_distribution<>(1, 3)] is one source
    of integers.  Its state is the stream of the values it will still
    produce; a draw returns the head and drops it.  [randomMove()] uses a
    single process-wide generator, so this state is threaded through every
    call that may draw. *)
Definition Rng := nat -> Z.

Definition draw (g : Rng) : Z * Rng := (g O, fun k => g (S k)).

(** [RandomMoveGenerator::operator()]: the switch on the drawn value. *)
Definition moveOfDraw (d : Z) : Move :=
  match d with
  | 1 => Rock
  | 2 => Paper
  | _ => Scissors   (* case 3: and default: *)
  end.

(** [Move randomMove()] *)
Definition randomMove (g : Rng) : Move * Rng :=
  let (d, g') := draw g in (moveOfDraw d, g').

(** ** Players

    [class Player] holds a name and dispatches [nextMove] virtually.  The
    built-in subclasses are [Random] and [TitForTat]. *)
Inductive Strategy : Type :=
| SRandom
| STitForTat.

Record Player : Type := mkPlayer { name_ : String.string; strategy : Strategy }.

(** [std::string name() const] *)
Definition name (p : Player) : String.string := name_ p.

(** [void setName(const std::string& n)] *)
Definition setName (n : String.string) (p : Player) : Player :=
  {| name_ := n; strategy := strategy p |}.

(** [Random::nextMove]: both arguments are unnamed and unused. *)
Definition Random_nextMove (history : list Round) (my_pos : Z) (g : Rng)
  : option (Move * Rng) :=
  Some (randomMove g).

(** [TitForTat::nextMove].  The [assert] is taken as enabled: a failed
    assertion aborts, which is [None]. *)
Definition TitForTat_nextMove (history : list Round) (my_pos : Z) (g : Rng)
  : option (Move * Rng) :=
  if (my_pos =? 0) || (my_pos =? 1) then
    match rev history with
    | [] => Some (randomMove g)
    | r :: _ => Some (if my_pos =? 0 then p2 r else p1 r, g)
    end
  else None.

(** Virtual dispatch of [Player::nextMove] for the built-in players. *)
Definition nextMove (p : Player) : list Round -> Z -> Rng -> option (Move * Rng) :=
  match strategy p with
  | SRandom => Random_nextMove
  | STitForTat => TitForTat_nextMove
  end.

(** ** The match loop

    [play] is written for any player type [P] whose [nextMove] threads a
    state [St] (for the built-ins, the shared random source) and may fail
    (an assertion, or an exception raised by an overriding [next_move]).
    Besides its result, the model returns the calls made to [nextMove]:
    the player, the history it was shown and the position, in call order. *)
Section Match.
Context {P St : Type}.
Variable next : P -> list Round -> Z -> St -> option (Move * St).

Definition Call : Type := (P * list Round * Z)%type.

(** The [for] loop of [play]; [n] counts the rounds still to play. *)
Fixpoint play_loop (pl1 pl2 : P) (n : nat) (history : list Round) (s : St)
  : option (list Round * list Call * St) :=
  match n with
  | O => Some (history, [], s)
  | S n' =>
      match next pl1 history 0 s with
      | None => None
      | Some (m1, s1) =>
          match next pl2 history 1 s1 with
          | None => None
          | Some (m2, s2) =>
              match play_loop pl1 pl2 n' (history ++ [mkRound m1 m2]) s2 with
              | None => None
              | Some (h, calls, s3) =>
                  Some (h, (pl1, history, 0) :: (pl2, history, 1) :: calls, s3)
              end
          end
      end
  end.

(** [std::vector<int> play(const Player& p1, const Player& p2, num_rounds)] *)
Definition play (pl1 pl2 : P) (num_rounds : nat) (s : St)
  : option (list Z * list Call * St) :=
  match play_loop pl1 pl2 num_rounds [] s with
  | None => None
  | Some (history, calls, s') => Some (score_rounds history, calls, s')
  end.

(** The calls of a match whose full log is [h], from round [i0] on. *)
Definition expected_calls (pl1 pl2 : P) (h : list Round) (i0 n : nat) : list Call :=
  flat_map (fun i => [(pl1, firstn i h, 0); (pl2, firstn i h, 1)]) (seq i0 n).

(** [rounds] are the rounds the two players play after the log [h0], from
    state [s] to state [s']: in each round player 1, shown the log so far at
    position 0, returns the round's first move, then player 2, shown the
    same log at position 1, returns its second move. *)
Fixpoint played (pl1 pl2 : P) (h0 rounds : list Round) (s s' : St) : Prop :=
  match rounds with
  | [] => s = s'
  | r :: rs =>
      exists s1 s2,
        next pl1 h0 0 s = Some (p1 r, s1) /\
        next pl2 h0 1 s1 = Some (p2 r, s2) /\
        played pl1 pl2 (h0 ++ [r]) rs s2 s'
  end.

End Match.

(** ** Helper lemmas *)

Lemma score_rounds_loop_app (acc : list Z) (rounds : list Round) :
  score_rounds_loop acc rounds = acc ++ map (fun r => score (p1 r) (p2 r)) rounds.
Proof.
  revert acc; induction rounds as [|r rs IH]; intros acc; simpl.
  - now rewrite app_nil_r.
  - unfold score_rounds_loop in *; simpl. rewrite IH. now rewrite <- app_assoc.
Qed.

Lemma score_rounds_map (rounds : list Round) :
  score_rounds rounds = map (fun r => score (p1 r) (p2 r)) rounds.
Proof. unfold score_rounds. now rewrite score_rounds_loop_app. Qed.

Section MatchFacts.
Context {P St : Type}.
Variable next : P -> list Round -> Z -> St -> option (Move * St).

Lemma firstn_prefix (h0 ext : list Round) (r : Round) :
  firstn (length h0) ((h0 ++ [r]) ++ ext) = h0.
Proof.
  rewrite <- app_assoc, firstn_app, firstn_all, Nat.sub_diag, firstn_O.
  apply app_nil_r.
Qed.

Lemma play_loop_spec (pl1 pl2 : P) (n : nat) :
  forall h0 s h calls s',
    play_loop next pl1 pl2 n h0 s = Some (h, calls, s') ->
    exists ext, h = h0 ++ ext /\ length ext = n /\
                calls = expected_calls pl1 pl2 h (length h0) n.
Proof.
  induction n as [|n IH]; intros h0 s h calls s' E; simpl in E.
  - inversion E; subst. exists []. now rewrite app_nil_r.
  - destruct (next pl1 h0 0 s) as [[m1 s1]|] eqn:E1; [|discriminate].
    destruct (next pl2 h0 1 s1) as [[m2 s2]|] eqn:E2; [|discriminate].
    destruct (play_loop next pl1 pl2 n (h0 ++ [mkRound m1 m2]) s2)
      as [[[h' calls'] s3]|] eqn:E3; [|discriminate].
    inversion E; subst h' s3 calls; clear E.
    destruct (IH _ _ _ _ _ E3) as (ext & Hh & Hlen & Hcalls).
    exists (mkRound m1 m2 :: ext). split; [|split].
    + rewrite Hh. now rewrite <- app_assoc.
    + simpl. now rewrite Hlen.
    + rewrite Hcalls. unfold expected_calls. simpl.
      rewrite Hh, firstn_prefix, length_app. simpl.
      now rewrite Nat.add_1_r.
Qed.

Lemma play_loop_played (pl1 pl2 : P) (n : nat) :
  forall h0 s h calls s',
    play_loop next pl1 pl2 n h0 s = Some (h, calls, s') ->
    exists ext, h = h0 ++ ext /\ played next pl1 pl2 h0 ext s s'.
Proof.
  induction n as [|n IH]; intros h0 s h calls s' E; simpl in E.
  - inversion E; subst. exists []. split; [now rewrite app_nil_r|reflexivity].
  - destruct (next pl1 h0 0 s) as [[m1 s1]|] eqn:E1; [|discriminate].
    destruct (next pl2 h0 1 s1) as [[m2 s2]|] eqn:E2; [|discriminate].
    destruct (play_loop next pl1 pl2 n (h0 ++ [mkRound m1 m2]) s2)
      as [[[h' calls'] s3]|] eqn:E3; [|discriminate].
    inversion E; subst h' s3 calls; clear E.
    destruct (IH _ _ _ _ _ E3) as (ext & Hh & Hp).
    exists (mkRound m1 m2 :: ext). split.
    + rewrite Hh. now rewrite <- app_assoc.
    + simpl. exists s1, s2. auto.
Qed.

Lemma played_play_loop (pl1 pl2 : P) (ext : list Round) :
  forall h0 s s', played next pl1 pl2 h0 ext s s' ->
    play_loop next pl1 pl2 (length ext) h0 s
    = Some (h0 ++ ext, expected_calls pl1 pl2 (h0 ++ ext) (length h0) (length ext), s').
Proof.
  induction ext as [|r ext IH]; intros h0 s s' Hp; simpl in Hp |- *.
  - subst. now rewrite app_nil_r.
  - destruct Hp as (s1 & s2 & E1 & E2 & Hp).
    rewrite E1, E2. destruct r as [a b]. simpl.
    rewrite (IH _ _ _ Hp).
    replace (h0 ++ {| p1 := a; p2 := b |} :: ext)
      with ((h0 ++ [mkRound a b]) ++ ext) by (now rewrite <- app_assoc).
    unfold expected_calls. simpl.
    rewrite firstn_prefix, length_app. simpl.
    now rewrite Nat.add_1_r.
Qed.

Lemma play_loop_total (pl1 pl2 : P)
  (Htot : forall p h z s, (z = 0 \/ z = 1) -> next p h z s <> None) (n : nat) :
  forall h0 s, exists r, play_loop next pl1 pl2 n h0 s = Some r.
Proof.
  induction n as [|n IH]; intros h0 s; simpl; [eauto|].
  destruct (next pl1 h0 0 s) as [[m1 s1]|] eqn:E1;
    [|exfalso; apply (Htot pl1 h0 0 s); auto].
  destruct (next pl2 h0 1 s1) as [[m2 s2]|] eqn:E2;
    [|exfalso; apply (Htot pl2 h0 1 s1); auto].
  destruct (IH (h0 ++ [mkRound m1 m2]) s2) as [[[h' calls'] s3] E3].
  rewrite E3. eauto.
Qed.

End MatchFacts.

(** The built-in players never fail at a valid position. *)
Lemma builtin_nextMove_total (p : Player) (h : list Round) (z : Z) (g : Rng) :
  (z = 0 \/ z = 1) -> nextMove p h z g <> None.
Proof.
  intros Hz. destruct p as [nm [|]]; unfold nextMove; simpl; [discriminate|].
  unfold TitForTat_nextMove.
  destruct Hz as [-> | ->]; simpl; destruct (rev h); discriminate.
Qed.

(** ** The beats-relation as the specification states it *)

(** Rock beats Scissors, Scissors beats Paper, Paper beats Rock. *)
Definition spec_beats (m1 m2 : Move) : bool :=
  match m1, m2 with
  | Rock, Scissors | Scissors, Paper | Paper, Rock => true
  | _, _ => false
  end.

(** -1 if m1 beats m2, +1 if m2 beats m1, 0 if m1 = m2. *)
Definition spec_score (m1 m2 : Move) : Z :=
  if spec_beats m1 m2 then -1
  else if spec_beats m2 m1 then 1
  else 0.

(** Sample players and a sample random source. *)
Definition t4t : Player := mkPlayer "t4t"%string STitForTat.
Definition rnd : Player := mkPlayer "random"%string SRandom.
Definition g_cycle : Rng := fun k => Z.of_nat (Nat.modulo k 3) + 1.
Definition g_rock_scissors : Rng := fun k => if Nat.eqb k 0 then 1 else 3.

(** Two fixed strategies without state: [true] always plays Rock, [false]
    always plays Scissors. *)
Definition fixed_next (p : bool) (history : list Round) (my_pos : Z) (s : unit)
  : option (Move * unit) :=
  Some (if p then Rock else Scissors, s).

(** ** The rest of rps.16.cpp *)

(** The enumerator values of [Move]: [Rock = 0], [Paper = 1], [Scissors = 2]. *)
Definition Move_value (m : Move) : Z :=
  match m with
  | Rock => 0
  | Paper => 1
  | Scissors => 2
  end.

(** The round with the two sides exchanged. *)
Definition swap_round (r : Round) : Round := mkRound (p2 r) (p1 r).

(** *** The lazily built score map

    [scoreMap()] keeps [static ScoreMap smap] and [static bool initialized].
    [std::map::operator[]] assigns the entry of a key, inserting it when
    absent. *)
Fixpoint map_set {V : Type} (k : Move) (v : V) (m : list (Move * V)) : list (Move * V) :=
  match m with
  | [] => [(k, v)]
  | (k', v') :: m' => if Move_eqb k k' then (k, v) :: m' else (k', v') :: map_set k v m'
  end.

Definition ScoreMapState : Type := (bool * ScoreMap)%type.

(** The static state before the first call. *)
Definition scoreMap_init_state : ScoreMapState := (false, []).

(** One call of [scoreMap()]: the returned map and the new static state. *)
Definition scoreMap_call (st : ScoreMapState) : ScoreMap * ScoreMapState :=
  let (initialized, smap) := st in
  if initialized then (smap, st)
  else
    let rock := map_set Scissors (-1) (map_set Paper 1 (map_set Rock 0 [])) in
    let smap1 := map_set Rock rock smap in
    let paper := map_set Scissors 1 (map_set Paper 0 (map_set Rock (-1) [])) in
    let smap2 := map_set Paper paper smap1 in
    let scissors := map_set Scissors 0 (map_set Paper (-1) (map_set Rock 1 [])) in
    let smap3 := map_set Scissors scissors smap2 in
    (smap3, (true, smap3)).

(** [k] successive calls: the maps they return, in order, and the final state. *)
Fixpoint scoreMap_calls (k : nat) (st : ScoreMapState) : list ScoreMap * ScoreMapState :=
  match k with
  | O => ([], st)
  | S k' =>
      let (m, st1) := scoreMap_call st in
      let (ms, st2) := scoreMap_calls k' st1 in
      (m :: ms, st2)
  end.

(** [score(m1, m2)] read from a given map. *)
Definition score_in (smap : ScoreMap) (m1 m2 : Move) : option Z :=
  match find m1 smap with
  | Some row => find m2 row
  | None => None
  end.

(** *** Python conversion of rounds

    The Python values the converters meet: integers, members of the
    exported [rps.Move] enum, tuples, and anything else. *)
Set Warnings "-register-all".
Inductive PyObject : Type :=
| PyInt (z : Z)
| PyMove (m : Move)
| PyTuple (items : list PyObject)
| PyOther.

(** [Round_to_tuple::convert]: [make_tuple(r.p1, r.p2)]. *)
Definition Round_to_tuple (r : Round) : PyObject :=
  PyTuple [PyMove (p1 r); PyMove (p2 r)].

(** [Round_from_tuple::checkIsMove]: [isinstance(obj, rps.Move)]. *)
Definition checkIsMove (o : PyObject) : bool :=
  match o with
  | PyMove _ => true
  | _ => false
  end.

(** [Round_from_tuple::convertible]. *)
Definition convertible (o : PyObject) : bool :=
  match o with
  | PyTuple items =>
      (List.length items =? 2)%nat
      && checkIsMove (nth 0 items PyOther)
      && checkIsMove (nth 1 items PyOther)
  | _ => false
  end.

(** [bp::extract<Move>]: fails (raises) on anything but a [Move]. *)
Definition extract_Move (o : PyObject) : option Move :=
  match o with
  | PyMove m => Some m
  | _ => None
  end.

(** [Round_from_tuple::construct]. *)
Definition construct (o : PyObject) : option Round :=
  match o with
  | PyTuple items =>
      match extract_Move (nth 0 items PyOther), extract_Move (nth 1 items PyOther) with
      | Some m1, Some m2 => Some (mkRound m1 m2)
      | _, _ => None
      end
  | _ => None
  end.

(** The registered from-Python conversion: [construct] runs only on what
    [convertible] accepts. *)
Definition Round_from_python (o : PyObject) : option Round :=
  if convertible o then construct o else None.


(** *** The demo [test] *)

(** The [BOOST_FOREACH] tally of [test]: wins of player 1 and of player 2. *)
Definition tally (results : list Z) : nat * nat :=
  fold_left (fun (w : nat * nat) r =>
               let (p1_wins, p2_wins) := w in
               if r =? -1 then (S p1_wins, p2_wins)
               else if r =? 1 then (p1_wins, S p2_wins)
               else (p1_wins, p2_wins))
            results (O, O).

Definition verdict (n1 n2 : string) (results : list Z) : string :=
  let (p1_wins, p2_wins) := tally results in
  if (p2_wins <? p1_wins)%nat then String.append "Player " (String.append n1 " wins!")
  else if (p1_wins <? p2_wins)%nat then String.append "Player " (String.append n2 " wins!")
  else "It was a tie!".

(** [std::string test(num_rounds)]: the lines printed (one score each), the
    returned message, and the random source afterwards. *)
Definition test (num_rounds : nat) (g : Rng) : option (list Z * string * Rng) :=
  let p1 := mkPlayer "t4t" STitForTat in
  let p2 := mkPlayer "random" SRandom in
  match play nextMove p1 p2 num_rounds g with
  | None => None
  | Some (results, _, g') => Some (results, verdict (name p1) (name p2) results, g')
  end.

(** Round [i] of a match between two Random players on source [g]. *)
Definition random_round (g : Rng) (i : nat) : Round :=
  mkRound (moveOfDraw (g (2 * i)%nat)) (moveOfDraw (g (S (2 * i)))).

Arguments random_round : simpl never.

(** Rounds [(x, y), (y, x), (x, y), ...], [n] of them. *)
Fixpoint alternate (x y : Move) (n : nat) : list Round :=
  match n with
  | O => []
  | S n' => mkRound x y :: alternate y x n'
  end.

Example score_rock_paper : score Rock Paper = 1.
Proof. reflexivity. Qed.

Example score_rounds_sample :
  score_rounds [mkRound Rock Scissors; mkRound Paper Paper; mkRound Paper Scissors]
  = [-1; 0; 1].
Proof. reflexivity. Qed.

Example mirror_vs_random_sample :
  match play nextMove t4t rnd 3 g_cycle with
  | Some (scores, _, _) => scores = [1; 1; 1]
  | None => False
  end.
Proof. vm_compute. reflexivity. Qed.

(** ** Claims *)

(** C1: the pairwise score is -1 when m1 beats m2, +1 when m2 beats m1 and
    0 when m1 = m2, for the cyclic relation Rock > Scissors > Paper > Rock;
    in particular score(Rock, Scissors) = score(Scissors, Paper) =
    score(Paper, Rock) = -1 and score(m, m) = 0. *)
Theorem score_cyclic (m1 m2 : Move) :
  score m1 m2 = spec_score m1 m2 /\
  score Rock Scissors = -1 /\ score Scissors Paper = -1 /\
  score Paper Rock = -1 /\ score m1 m1 = 0.
Proof. destruct m1, m2; repeat split; reflexivity. Qed.

(** C4: batch scoring returns one score per round, in order: its length is
    the number of rounds and its i-th entry is the pairwise score of the
    i-th round's two moves. *)
Theorem score_rounds_pointwise (rounds : list Round) :
  length (score_rounds rounds) = length rounds /\
  forall i, nth_error (score_rounds rounds) i
            = option_map (fun r => score (p1 r) (p2 r)) (nth_error rounds i).
Proof.
  rewrite score_rounds_map. split.
  - apply length_map.
  - intros i. apply nth_error_map.
Qed.

(** C6: for distinct moves the score is antisymmetric, and one of the two
    orders scores -1 while the other scores +1. *)
Theorem score_antisym (m1 m2 : Move) (Hne : m1 <> m2) :
  score m1 m2 = - score m2 m1 /\
  ((score m1 m2 = -1 /\ score m2 m1 = 1) \/ (score m1 m2 = 1 /\ score m2 m1 = -1)).
Proof.
  destruct m1, m2; try (exfalso; now apply Hne); simpl; split; auto.
Qed.

Lemma score_antisym_witness :
  Rock <> Paper /\ score Rock Paper = - score Paper Rock.
Proof.
  split; [discriminate|].
  apply (proj1 (score_antisym Rock Paper ltac:(discriminate))).
Defined.

(** C8: a match of zero rounds returns no scores, makes no call to either
    player and leaves the random source untouched. *)
Theorem play_zero_rounds {P St : Type}
  (next : P -> list Round -> Z -> St -> option (Move * St)) (pl1 pl2 : P) (s : St) :
  play next pl1 pl2 0 s = Some ([], [], s).
Proof. reflexivity. Qed.

(** C3: for any two players and any number of rounds N, a match whose
    players do not fail at a valid position returns, and a match that
    returns gives exactly N scores: the batch scores of the N rounds
    actually played, in round order.  In round i player 1 is called at
    position 0 and then player 2 at position 1, each with the first i rounds
    only, so player 2 does not see player 1's move of round i; round i holds
    the two moves they returned.  Conversely, any N rounds the players play
    in this way are the result of [play]. *)
Theorem play_rounds_spec {P St : Type}
  (next : P -> list Round -> Z -> St -> option (Move * St))
  (pl1 pl2 : P) (N : nat) (s : St) :
  ((forall p h z s0, (z = 0 \/ z = 1) -> next p h z s0 <> None) ->
   exists r, play next pl1 pl2 N s = Some r) /\
  (forall scores calls s',
     play next pl1 pl2 N s = Some (scores, calls, s') ->
     exists hist, length hist = N /\ length scores = N /\
                  played next pl1 pl2 [] hist s s' /\
                  scores = score_rounds hist /\
                  calls = expected_calls pl1 pl2 hist 0 N) /\
  (forall hist s',
     length hist = N -> played next pl1 pl2 [] hist s s' ->
     play next pl1 pl2 N s = Some (score_rounds hist, expected_calls pl1 pl2 hist 0 N, s')).
Proof.
  split; [|split].
  - intros Htot. unfold play.
    destruct (play_loop_total next pl1 pl2 Htot N [] s) as [[[h calls] s'] E].
    rewrite E. eauto.
  - intros scores calls s' E. unfold play in E.
    destruct (play_loop next pl1 pl2 N [] s) as [[[h calls0] s0]|] eqn:E0;
      [|discriminate].
    inversion E; subst scores calls0 s0; clear E.
    destruct (play_loop_spec next pl1 pl2 N [] s h calls s' E0)
      as (ext & Hh & Hlen & Hcalls).
    destruct (play_loop_played next pl1 pl2 N [] s h calls s' E0)
      as (ext' & Hh' & Hp).
    simpl in Hh, Hh'. subst h ext'.
    exists ext. repeat split; auto.
    rewrite score_rounds_map, length_map. exact Hlen.
  - intros hist s' Hlen Hp. unfold play.
    rewrite <- Hlen, (played_play_loop next pl1 pl2 hist [] s s' Hp).
    reflexivity.
Qed.

Lemma play_rounds_spec_witness :
  (exists r, play nextMove t4t rnd 2 g_cycle = Some r) /\
  (exists scores calls g',
    play nextMove t4t rnd 2 g_cycle = Some (scores, calls, g') /\
    exists hist, length hist = 2%nat /\ length scores = 2%nat /\
                 played nextMove t4t rnd [] hist g_cycle g' /\
                 scores = score_rounds hist /\
                 calls = expected_calls t4t rnd hist 0 2) /\
  play fixed_next true false 3 tt
  = Some ([-1; -1; -1],
          expected_calls true false
            [mkRound Rock Scissors; mkRound Rock Scissors; mkRound Rock Scissors] 0 3,
          tt).
Proof.
  split; [|split].
  - apply (proj1 (play_rounds_spec nextMove t4t rnd 2 g_cycle)).
    intros p h z s0 Hz. exact (builtin_nextMove_total p h z s0 Hz).
  - do 3 eexists. split; [reflexivity|].
    eapply (proj1 (proj2 (play_rounds_spec nextMove t4t rnd 2 g_cycle))).
    reflexivity.
  - apply (proj2 (proj2 (play_rounds_spec fixed_next true false 3 tt))
             [mkRound Rock Scissors; mkRound Rock Scissors; mkRound Rock Scissors] tt).
    + reflexivity.
    + simpl. repeat (exists tt, tt; split; [reflexivity|split; [reflexivity|]]).
      reflexivity.
Defined.

(** C5: at a valid position and on a non-empty history, the Mirror
    (TitForTat) player returns the opponent's move of the last round and
    does not draw; on an empty history it returns a random move.  With
    last round (Rock, Paper), position 0 gets Paper and position 1 Rock. *)
Theorem mirror_nextMove (nm : string) (h : list Round) (r : Round) (pos : Z)
  (g : Rng) (Hpos : pos = 0 \/ pos = 1) :
  nextMove (mkPlayer nm STitForTat) (h ++ [r]) pos g
    = Some (if pos =? 0 then p2 r else p1 r, g) /\
  nextMove (mkPlayer nm STitForTat) [] pos g = Some (randomMove g) /\
  nextMove (mkPlayer nm STitForTat) (h ++ [mkRound Rock Paper]) 0 g = Some (Paper, g) /\
  nextMove (mkPlayer nm STitForTat) (h ++ [mkRound Rock Paper]) 1 g = Some (Rock, g).
Proof.
  unfold nextMove, TitForTat_nextMove; simpl.
  rewrite !rev_app_distr. simpl.
  destruct Hpos as [-> | ->]; simpl; repeat split.
Qed.

Lemma mirror_nextMove_witness :
  nextMove t4t [mkRound Rock Paper] 0 g_cycle = Some (Paper, g_cycle).
Proof.
  apply (proj1 (mirror_nextMove "t4t"%string [] (mkRound Rock Paper) 0 g_cycle
                  ltac:(lia))).
Defined.

Lemma moveOfDraw_eq (d : Z) :
  moveOfDraw d = if d =? 1 then Rock else if d =? 2 then Paper else Scissors.
Proof.
  destruct d as [|p|p]; [reflexivity| |reflexivity].
  destruct p as [p|p|]; try destruct p; reflexivity.
Qed.

(** C2, as the code behaves: two Mirror players in a 5-round match replay
    each other's previous move, so with round 0 = (a, b) drawn from the
    random source the rounds alternate (a, b), (b, a), (a, b), ...; the
    scores are s, -s, s, -s, s for s = score(a, b), and they are all 0
    only when round 0 is a tie. *)
Theorem mirror_match_alternates (n1 n2 : string) (g : Rng) :
  let a := moveOfDraw (g 0%nat) in
  let b := moveOfDraw (g 1%nat) in
  (exists calls g',
     play_loop nextMove (mkPlayer n1 STitForTat) (mkPlayer n2 STitForTat) 5 [] g
     = Some ([mkRound a b; mkRound b a; mkRound a b; mkRound b a; mkRound a b],
             calls, g')) /\
  (exists calls g',
     play nextMove (mkPlayer n1 STitForTat) (mkPlayer n2 STitForTat) 5 g
     = Some ([score a b; - score a b; score a b; - score a b; score a b],
             calls, g')) /\
  (score a b = 0 <-> a = b).
Proof.
  cbv zeta. unfold play. simpl.
  generalize (moveOfDraw (g 0%nat)) (moveOfDraw (g 1%nat)); intros a b.
  split; [do 2 eexists; reflexivity|].
  destruct a, b; (split; [do 2 eexists; reflexivity|]); split; intro H; compute in H |- *; congruence.
Qed.

(** C2 as stated fails: with round 0 = (Rock, Scissors) the two Mirror
    players swap moves, and round 1 = (Scissors, Rock) scores +1, not 0. *)
Lemma mirror_match_not_all_ties :
  ~ (forall g scores calls g',
       play nextMove t4t t4t 5 g = Some (scores, calls, g') ->
       forall i, (1 <= i < 5)%nat -> nth i scores 0 = 0).
Proof.
  intros H.
  assert (E : exists scores calls g',
             play nextMove t4t t4t 5 g_rock_scissors = Some (scores, calls, g') /\
             scores = [-1; 1; -1; 1; -1])
    by (do 3 eexists; split; reflexivity).
  destruct E as (sc & cl & g' & E & ->).
  specialize (H _ _ _ _ E 1%nat ltac:(lia)).
  discriminate H.
Qed.

(** C7, as the code behaves: only TitForTat asserts a valid position; at
    any other position it aborts, while Random ignores the position and
    returns a random move. *)
Theorem invalid_side_behaviour (nm : string) (h : list Round) (pos : Z) (g : Rng)
  (Hpos : ~ (pos = 0 \/ pos = 1)) :
  nextMove (mkPlayer nm STitForTat) h pos g = None /\
  nextMove (mkPlayer nm SRandom) h pos g = Some (randomMove g).
Proof.
  unfold nextMove, TitForTat_nextMove, Random_nextMove; simpl. split; [|reflexivity].
  destruct (Z.eqb_spec pos 0), (Z.eqb_spec pos 1); simpl; auto; lia.
Qed.

Lemma invalid_side_behaviour_witness :
  nextMove t4t [] 2 g_cycle = None.
Proof.
  apply (proj1 (invalid_side_behaviour "t4t"%string [] 2 g_cycle ltac:(lia))).
Defined.

(** C7 as stated fails: Random called at position 2 returns a move. *)
Lemma random_accepts_invalid_side :
  nextMove rnd [] 2 g_cycle = Some (Rock, fun k => g_cycle (S k)).
Proof. reflexivity. Qed.

(** C9: the name plays no part in the decision: two built-in players that
    differ only in their names return the same move and random state for
    every history, position and random state; [setName] sets the name and
    keeps the strategy, hence the behaviour. *)
Theorem name_irrelevant (n1 n2 n : string) (k : Strategy) (p : Player)
  (h : list Round) (pos : Z) (g : Rng) :
  nextMove (mkPlayer n1 k) h pos g = nextMove (mkPlayer n2 k) h pos g /\
  name (setName n p) = n /\
  strategy (setName n p) = strategy p /\
  nextMove (setName n p) h pos g = nextMove p h pos g.
Proof. repeat split. Qed.

(** C10: the random move generator maps a draw of 1 to Rock, 2 to Paper and
    every other value to Scissors, so it always yields one of the three
    moves; Random and Mirror on an empty history (valid position) return
    that move of the next draw. *)
Theorem moveOfDraw_total (d : Z) (nm : string) (h : list Round) (pos : Z) (g : Rng) :
  (moveOfDraw d = Rock <-> d = 1) /\
  (moveOfDraw d = Paper <-> d = 2) /\
  (moveOfDraw d = Scissors <-> d <> 1 /\ d <> 2) /\
  In (moveOfDraw d) [Rock; Paper; Scissors] /\
  nextMove (mkPlayer nm SRandom) h pos g = Some (moveOfDraw (g 0%nat), fun k => g (S k)) /\
  nextMove (mkPlayer nm STitForTat) [] 0 g = Some (moveOfDraw (g 0%nat), fun k => g (S k)) /\
  nextMove (mkPlayer nm STitForTat) [] 1 g = Some (moveOfDraw (g 0%nat), fun k => g (S k)).
Proof.
  rewrite moveOfDraw_eq.
  destruct (Z.eqb_spec d 1), (Z.eqb_spec d 2);
    repeat split; simpl; intros; try tauto; try congruence; try lia.
Qed.

(** ** Further properties of rps.16.cpp *)

(** Every score is -1, 0 or 1, and [score] is the modular rule
    ((v2 - v1 + 1) mod 3) - 1 on the enumerator values of the moves. *)
Theorem score_range_mod (m1 m2 : Move) :
  In (score m1 m2) [-1; 0; 1] /\
  score m1 m2 = (Move_value m2 - Move_value m1 + 1) mod 3 - 1.
Proof. destruct m1, m2; split; simpl; auto; reflexivity. Qed.

(** Batch scoring distributes over concatenation of round sequences. *)
Theorem score_rounds_app (r1 r2 : list Round) :
  score_rounds (r1 ++ r2) = score_rounds r1 ++ score_rounds r2.
Proof. rewrite !score_rounds_map. apply map_app. Qed.

(** Exchanging the two sides of every round negates every score. *)
Theorem score_rounds_swap (rounds : list Round) :
  score_rounds (map swap_round rounds) = map Z.opp (score_rounds rounds).
Proof.
  rewrite !score_rounds_map, !map_map. apply map_ext.
  intros [a b]; destruct a, b; reflexivity.
Qed.

Lemma scoreMap_calls_initialized (k : nat) (m : ScoreMap) :
  scoreMap_calls k (true, m) = (repeat m k, (true, m)).
Proof.
  induction k as [|k IH]; [reflexivity|].
  simpl. now rewrite IH.
Qed.

(** The lazily initialised [scoreMap()]: from the initial static state,
    [k] calls all return the same map, built by the first call, after which
    the state is initialised; in that map every lookup [find(m1)->second
    .find(m2)] succeeds and gives [score m1 m2]. *)
Theorem scoreMap_calls_spec (k : nat) :
  let m0 := fst (scoreMap_call scoreMap_init_state) in
  scoreMap_calls (S k) scoreMap_init_state = (repeat m0 (S k), (true, m0)) /\
  forall m1 m2, score_in m0 m1 m2 = Some (score m1 m2).
Proof.
  intros m0. split.
  - simpl. rewrite scoreMap_calls_initialized. reflexivity.
  - intros m1 m2; destruct m1, m2; reflexivity.
Qed.

(** A round converted to a Python tuple converts back to the same round. *)
Theorem Round_tuple_roundtrip (r : Round) :
  Round_from_python (Round_to_tuple r) = Some r.
Proof. destruct r; reflexivity. Qed.

Lemma construct_some (o : PyObject) (r : Round) :
  convertible o = true -> construct o = Some r -> o = Round_to_tuple r.
Proof.
  destruct o as [z|m|items|]; simpl; try discriminate.
  destruct items as [|a [|b [|c rest]]]; simpl; try discriminate.
  destruct a; try discriminate. destruct b; try discriminate.
  intros _ E. inversion E; subst. reflexivity.
Qed.

(** The from-Python conversion accepts exactly the 2-tuples of [Move]
    values: whatever it converts is the tuple of the round it yields. *)
Theorem Round_from_python_exact (o : PyObject) (r : Round)
  (H : Round_from_python o = Some r) :
  o = Round_to_tuple r.
Proof.
  unfold Round_from_python in H.
  destruct (convertible o) eqn:C; [|discriminate].
  exact (construct_some o r C H).
Qed.

Lemma Round_from_python_exact_witness :
  PyTuple [PyMove Rock; PyMove Paper] = Round_to_tuple (mkRound Rock Paper).
Proof.
  apply (Round_from_python_exact (PyTuple [PyMove Rock; PyMove Paper])
           (mkRound Rock Paper)).
  reflexivity.
Defined.

(** The from-Python conversion fails on exactly the values that are not a
    2-tuple of [Move] values: every non-tuple, every tuple of another size,
    and every pair with an item that is not a [Move] (an int, a nested
    tuple or any other object). *)
Theorem Round_from_python_rejects (o : PyObject) :
  Round_from_python o = None <-> ~ exists a b, o = PyTuple [PyMove a; PyMove b].
Proof.
  split.
  - intros H [a [b ->]]. discriminate H.
  - intros Hn. unfold Round_from_python.
    destruct (convertible o) eqn:C; [|reflexivity].
    destruct (construct o) as [r|] eqn:E; [|reflexivity].
    exfalso. apply Hn. rewrite (construct_some o r C E).
    exists (p1 r), (p2 r). reflexivity.
Qed.


(** A match between two built-in players never fails: [play] only ever
    passes positions 0 and 1. *)
Theorem play_builtin_total (pl1 pl2 : Player) (n : nat) (g : Rng) :
  exists scores calls g', play nextMove pl1 pl2 n g = Some (scores, calls, g').
Proof.
  unfold play.
  destruct (play_loop_total nextMove pl1 pl2 builtin_nextMove_total n [] g)
    as [[[h calls] g'] E].
  rewrite E. eauto.
Qed.

Lemma tally_count (results : list Z) (a b : nat) :
  fold_left (fun (w : nat * nat) r =>
               let (p1_wins, p2_wins) := w in
               if r =? -1 then (S p1_wins, p2_wins)
               else if r =? 1 then (p1_wins, S p2_wins)
               else (p1_wins, p2_wins))
            results (a, b)
  = (a + count_occ Z.eq_dec results (-1)%Z, b + count_occ Z.eq_dec results 1%Z)%nat.
Proof.
  revert a b; induction results as [|r rs IH]; intros a b; simpl.
  - now rewrite !Nat.add_0_r.
  - destruct (Z.eqb_spec r (-1)) as [->|H1].
    + rewrite IH. simpl. f_equal; lia.
    + destruct (Z.eqb_spec r 1) as [->|H2].
      * rewrite IH. simpl. f_equal; lia.
      * rewrite IH. destruct (Z.eq_dec r (-1)); [congruence|].
        destruct (Z.eq_dec r 1); [congruence|]. reflexivity.
Qed.

(** The demo [test(n)] always completes: it prints the [n] scores of a
    TitForTat ("t4t") versus Random ("random") match and announces the
    player with strictly more wins (score -1 counts for player 1, +1 for
    player 2), or a tie when the counts are equal. *)
Theorem test_spec (n : nat) (g : Rng) :
  exists results msg g',
    test n g = Some (results, msg, g') /\ List.length results = n /\
    let w1 := count_occ Z.eq_dec results (-1) in
    let w2 := count_occ Z.eq_dec results 1 in
    (((w2 < w1)%nat /\ msg = "Player t4t wins!"%string) \/
     ((w1 < w2)%nat /\ msg = "Player random wins!"%string) \/
     (w1 = w2 /\ msg = "It was a tie!"%string)).
Proof.
  unfold test, play.
  destruct (play_loop_total nextMove (mkPlayer "t4t" STitForTat)
              (mkPlayer "random" SRandom) builtin_nextMove_total n [] g)
    as [[[h calls] g'] E].
  rewrite E.
  destruct (play_loop_spec nextMove _ _ n [] g h calls g' E) as (ext & Hh & Hlen & _).
  simpl in Hh; subst h.
  do 3 eexists. split; [reflexivity|]. split.
  { rewrite score_rounds_map, length_map. exact Hlen. }
  unfold verdict, tally. rewrite tally_count. simpl.
  set (w1 := count_occ Z.eq_dec (score_rounds ext) (-1)).
  set (w2 := count_occ Z.eq_dec (score_rounds ext) 1).
  destruct (Nat.ltb_spec w2 w1); [left; auto|].
  destruct (Nat.ltb_spec w1 w2); [right; left; auto|].
  right; right. split; [lia|reflexivity].
Qed.

Section LoopFacts.
Context {P St : Type}.
Variable next : P -> list Round -> Z -> St -> option (Move * St).

Lemma play_loop_add (pl1 pl2 : P) (n m : nat) :
  forall h0 s,
    play_loop next pl1 pl2 (n + m) h0 s =
    match play_loop next pl1 pl2 n h0 s with
    | None => None
    | Some (h1, c1, s1) =>
        match play_loop next pl1 pl2 m h1 s1 with
        | None => None
        | Some (h2, c2, s2) => Some (h2, c1 ++ c2, s2)
        end
    end.
Proof.
  induction n as [|n IH]; intros h0 s; simpl.
  - destruct (play_loop next pl1 pl2 m h0 s) as [[[h2 c2] s2]|]; reflexivity.
  - destruct (next pl1 h0 0 s) as [[m1 s1]|]; [|reflexivity].
    destruct (next pl2 h0 1 s1) as [[m2 s2]|]; [|reflexivity].
    rewrite IH.
    destruct (play_loop next pl1 pl2 n (h0 ++ [mkRound m1 m2]) s2)
      as [[[h1 c1] s3]|]; [|reflexivity].
    destruct (play_loop next pl1 pl2 m h1 s3) as [[[h2 c2] s4]|]; reflexivity.
Qed.

Lemma play_loop_calls_length (pl1 pl2 : P) (n : nat) :
  forall h0 s h c s',
    play_loop next pl1 pl2 n h0 s = Some (h, c, s') -> List.length c = (2 * n)%nat.
Proof.
  induction n as [|n IH]; intros h0 s h c s' E; simpl in E.
  - now inversion E.
  - destruct (next pl1 h0 0 s) as [[m1 s1]|]; [|discriminate].
    destruct (next pl2 h0 1 s1) as [[m2 s2]|]; [|discriminate].
    destruct (play_loop next pl1 pl2 n (h0 ++ [mkRound m1 m2]) s2)
      as [[[h1 c1] s3]|] eqn:E3; [|discriminate].
    inversion E; subst. simpl. rewrite (IH _ _ _ _ _ E3). lia.
Qed.

End LoopFacts.

(** Matches compose: the first [n] rounds of an [n + m]-round match are the
    [n]-round match from the same random state, so its scores and the
    calls made are prefixes of the longer match's. *)
Theorem play_prefix {P St : Type}
  (next : P -> list Round -> Z -> St -> option (Move * St))
  (pl1 pl2 : P) (n m : nat) (s : St) (scores : list Z) (calls : list (Call (P:=P))) (s' : St)
  (H : play next pl1 pl2 (n + m) s = Some (scores, calls, s')) :
  exists s_mid,
    play next pl1 pl2 n s = Some (firstn n scores, firstn (2 * n) calls, s_mid).
Proof.
  unfold play in *. rewrite play_loop_add in H.
  destruct (play_loop next pl1 pl2 n [] s) as [[[h1 c1] s1]|] eqn:E1; [|discriminate].
  destruct (play_loop next pl1 pl2 m h1 s1) as [[[h2 c2] s2]|] eqn:E2; [|discriminate].
  inversion H; subst scores calls s'; clear H.
  destruct (play_loop_spec next pl1 pl2 n [] s h1 c1 s1 E1) as (e1 & Hh1 & Hl1 & _).
  destruct (play_loop_spec next pl1 pl2 m h1 s1 h2 c2 s2 E2) as (e2 & Hh2 & _ & _).
  simpl in Hh1. subst h1 h2.
  exists s1. f_equal. f_equal. f_equal.
  - assert (L : List.length (score_rounds e1) = n)
      by (rewrite score_rounds_map, length_map; exact Hl1).
    rewrite score_rounds_app, firstn_app, L, Nat.sub_diag, firstn_O, app_nil_r.
    rewrite <- L. symmetry. apply firstn_all.
  - rewrite firstn_app, <- (play_loop_calls_length next pl1 pl2 n [] s e1 c1 s1 E1).
    now rewrite Nat.sub_diag, firstn_O, app_nil_r, firstn_all.
Qed.

Lemma play_prefix_witness :
  exists s_mid, play nextMove t4t rnd 2 g_cycle = Some ([1; 1], firstn 4 [(t4t, [], 0); (rnd, [], 1); (t4t, [mkRound Rock Paper], 0); (rnd, [mkRound Rock Paper], 1); (t4t, [mkRound Rock Paper; mkRound Paper Scissors], 0); (rnd, [mkRound Rock Paper; mkRound Paper Scissors], 1)], s_mid).
Proof.
  apply (play_prefix nextMove t4t rnd 2 1 g_cycle [1; 1; 1]
           [(t4t, [], 0); (rnd, [], 1); (t4t, [mkRound Rock Paper], 0);
            (rnd, [mkRound Rock Paper], 1);
            (t4t, [mkRound Rock Paper; mkRound Paper Scissors], 0);
            (rnd, [mkRound Rock Paper; mkRound Paper Scissors], 1)]
           (fun k => g_cycle (S (S (S (S k)))))).
  reflexivity.
Defined.

Lemma nth_last_two (h0' ext : list Round) (x r d : Round) :
  nth (List.length h0') (((h0' ++ [x]) ++ [r]) ++ ext) d = x /\
  nth (S (List.length h0')) (((h0' ++ [x]) ++ [r]) ++ ext) d = r.
Proof.
  rewrite <- !app_assoc. simpl. split.
  - apply nth_middle.
  - change (x :: r :: ext) with ([x] ++ r :: ext). rewrite app_assoc.
    replace (S (List.length h0')) with (List.length (h0' ++ [x]))
      by (rewrite length_app; simpl; lia).
    apply nth_middle.
Qed.

Lemma random_rounds_shift (g : Rng) (n : nat) :
  map (random_round g) (seq 1 n)
  = map (random_round (fun k => g (S (S k)))) (seq 0 n).
Proof.
  rewrite <- seq_shift, map_map. apply map_ext. intros i.
  unfold random_round. f_equal; f_equal; f_equal; lia.
Qed.

Section Mirroring.
Context {P St : Type}.
Variable next : P -> list Round -> Z -> St -> option (Move * St).

(** If player 1 answers a non-empty history with the opponent's last move,
    every round after the first repeats, as player 1's move, player 2's
    move of the round before. *)
Lemma play_loop_mirror1 (pl1 pl2 : P)
  (Hm : forall h r s m s', next pl1 (h ++ [r]) 0 s = Some (m, s') -> m = p2 r)
  (n : nat) :
  forall h0 s h c s', play_loop next pl1 pl2 n h0 s = Some (h, c, s') ->
  forall i d, (List.length h0 <= S i)%nat -> (S i < List.length h)%nat ->
  p1 (nth (S i) h d) = p2 (nth i h d).
Proof.
  induction n as [|n IH]; intros h0 s h c s' E i d Hlo Hhi; simpl in E.
  - inversion E; subst. lia.
  - destruct (next pl1 h0 0 s) as [[m1 s1]|] eqn:E1; [|discriminate].
    destruct (next pl2 h0 1 s1) as [[m2 s2]|] eqn:E2; [|discriminate].
    destruct (play_loop next pl1 pl2 n (h0 ++ [mkRound m1 m2]) s2)
      as [[[h' c'] s3]|] eqn:E3; [|discriminate].
    inversion E; subst h' s3; clear E.
    destruct (Nat.eq_dec (S i) (List.length h0)) as [Heq|Hne].
    + destruct (play_loop_spec next pl1 pl2 n _ _ _ _ _ E3) as (ext & Hh & _ & _).
      destruct (exists_last (l := h0)) as [h0' [x Hx]];
        [intros ->; simpl in Heq; discriminate|].
      subst h0. rewrite length_app in Heq; simpl in Heq.
      assert (Hi : i = List.length h0') by lia. subst i.
      rewrite Hh. destruct (nth_last_two h0' ext x (mkRound m1 m2) d) as [-> ->].
      simpl. exact (Hm _ _ _ _ _ E1).
    + apply (IH _ _ _ _ _ E3); [rewrite length_app; simpl; lia | exact Hhi].
Qed.

(** The same for player 2 copying player 1's previous move. *)
Lemma play_loop_mirror2 (pl1 pl2 : P)
  (Hm : forall h r s m s', next pl2 (h ++ [r]) 1 s = Some (m, s') -> m = p1 r)
  (n : nat) :
  forall h0 s h c s', play_loop next pl1 pl2 n h0 s = Some (h, c, s') ->
  forall i d, (List.length h0 <= S i)%nat -> (S i < List.length h)%nat ->
  p2 (nth (S i) h d) = p1 (nth i h d).
Proof.
  induction n as [|n IH]; intros h0 s h c s' E i d Hlo Hhi; simpl in E.
  - inversion E; subst. lia.
  - destruct (next pl1 h0 0 s) as [[m1 s1]|] eqn:E1; [|discriminate].
    destruct (next pl2 h0 1 s1) as [[m2 s2]|] eqn:E2; [|discriminate].
    destruct (play_loop next pl1 pl2 n (h0 ++ [mkRound m1 m2]) s2)
      as [[[h' c'] s3]|] eqn:E3; [|discriminate].
    inversion E; subst h' s3; clear E.
    destruct (Nat.eq_dec (S i) (List.length h0)) as [Heq|Hne].
    + destruct (play_loop_spec next pl1 pl2 n _ _ _ _ _ E3) as (ext & Hh & _ & _).
      destruct (exists_last (l := h0)) as [h0' [x Hx]];
        [intros ->; simpl in Heq; discriminate|].
      subst h0. rewrite length_app in Heq; simpl in Heq.
      assert (Hi : i = List.length h0') by lia. subst i.
      rewrite Hh. destruct (nth_last_two h0' ext x (mkRound m1 m2) d) as [-> ->].
      simpl. exact (Hm _ _ _ _ _ E2).
    + apply (IH _ _ _ _ _ E3); [rewrite length_app; simpl; lia | exact Hhi].
Qed.

End Mirroring.

Lemma TitForTat_last (nm : string) (h : list Round) (r : Round) (pos : Z) (g : Rng)
  (m : Move) (g' : Rng) :
  nextMove (mkPlayer nm STitForTat) (h ++ [r]) pos g = Some (m, g') ->
  m = if pos =? 0 then p2 r else p1 r.
Proof.
  unfold nextMove, TitForTat_nextMove; simpl. rewrite rev_app_distr. simpl.
  destruct ((pos =? 0) || (pos =? 1)); [|discriminate].
  intros E; inversion E; reflexivity.
Qed.

(** With TitForTat as player 1, against any built-in opponent, player 1's
    move in every round i+1 of the match is player 2's move of round i. *)
Theorem TitForTat_first_copies (nm : string) (q : Player) (n : nat) (g : Rng)
  (h : list Round) (c : list (Call (P:=Player))) (g' : Rng)
  (H : play_loop nextMove (mkPlayer nm STitForTat) q n [] g = Some (h, c, g'))
  (i : nat) (d : Round) (Hi : (S i < List.length h)%nat) :
  p1 (nth (S i) h d) = p2 (nth i h d).
Proof.
  refine (play_loop_mirror1 nextMove _ q _ n [] g h c g' H i d _ Hi); [|simpl; lia].
  intros h0 r s m s' E. exact (TitForTat_last nm h0 r 0 s m s' E).
Qed.

(** With TitForTat as player 2, its move in every round i+1 is player 1's
    move of round i. *)
Theorem TitForTat_second_copies (nm : string) (q : Player) (n : nat) (g : Rng)
  (h : list Round) (c : list (Call (P:=Player))) (g' : Rng)
  (H : play_loop nextMove q (mkPlayer nm STitForTat) n [] g = Some (h, c, g'))
  (i : nat) (d : Round) (Hi : (S i < List.length h)%nat) :
  p2 (nth (S i) h d) = p1 (nth i h d).
Proof.
  refine (play_loop_mirror2 nextMove q _ _ n [] g h c g' H i d _ Hi); [|simpl; lia].
  intros h0 r s m s' E. exact (TitForTat_last nm h0 r 1 s m s' E).
Qed.

Lemma TitForTat_first_copies_witness :
  exists h c g',
    play_loop nextMove t4t rnd 3 [] g_cycle = Some (h, c, g') /\
    p1 (nth 2 h (mkRound Rock Rock)) = p2 (nth 1 h (mkRound Rock Rock)).
Proof.
  do 3 eexists. split; [reflexivity|].
  apply (TitForTat_first_copies "t4t"%string rnd 3 g_cycle _ _ _ eq_refl 1
           (mkRound Rock Rock)).
  simpl. lia.
Defined.

Lemma TitForTat_second_copies_witness :
  exists h c g',
    play_loop nextMove rnd t4t 3 [] g_cycle = Some (h, c, g') /\
    p2 (nth 2 h (mkRound Rock Rock)) = p1 (nth 1 h (mkRound Rock Rock)).
Proof.
  do 3 eexists. split; [reflexivity|].
  apply (TitForTat_second_copies "t4t"%string rnd 3 g_cycle _ _ _ eq_refl 1
           (mkRound Rock Rock)).
  simpl. lia.
Defined.

(** Two Random players consume the random source two draws per round,
    player 1 first: round i is (move of draw 2i, move of draw 2i+1), and
    after [n] rounds the source has advanced by 2n draws. *)
Theorem Random_match_draws (n1 n2 : string) (n : nat) :
  forall (h0 : list Round) (g : Rng),
  exists c g',
    play_loop nextMove (mkPlayer n1 SRandom) (mkPlayer n2 SRandom) n h0 g
    = Some (h0 ++ map (random_round g) (seq 0 n), c, g') /\
    forall k, g' k = g (2 * n + k)%nat.
Proof.
  induction n as [|n IH]; intros h0 g.
  - exists [], g. split; [simpl; now rewrite app_nil_r|]. reflexivity.
  - simpl.
    match goal with
    | |- context [play_loop _ _ _ n ?hh ?ss] =>
        destruct (IH hh ss) as (c & g' & E & Hg); rewrite E
    end.
    exists ((mkPlayer n1 SRandom, h0, 0) :: (mkPlayer n2 SRandom, h0, 1) :: c), g'.
    split.
    + rewrite random_rounds_shift, <- app_assoc. reflexivity.
    + intros k. rewrite Hg. f_equal. lia.
Qed.

Lemma play_loop_S {P St : Type} (next : P -> list Round -> Z -> St -> option (Move * St))
  (pl1 pl2 : P) (n : nat) (h : list Round) (s : St) :
  play_loop next pl1 pl2 (S n) h s =
  match next pl1 h 0 s with
  | None => None
  | Some (m1, s1) =>
      match next pl2 h 1 s1 with
      | None => None
      | Some (m2, s2) =>
          match play_loop next pl1 pl2 n (h ++ [mkRound m1 m2]) s2 with
          | None => None
          | Some (h', calls, s3) =>
              Some (h', (pl1, h, 0) :: (pl2, h, 1) :: calls, s3)
          end
      end
  end.
Proof. reflexivity. Qed.

Lemma TitForTat_nextMove_last (nm : string) (h : list Round) (r : Round) (g : Rng) :
  nextMove (mkPlayer nm STitForTat) (h ++ [r]) 0 g = Some (p2 r, g) /\
  nextMove (mkPlayer nm STitForTat) (h ++ [r]) 1 g = Some (p1 r, g).
Proof.
  unfold nextMove, TitForTat_nextMove; simpl. rewrite rev_app_distr. split; reflexivity.
Qed.

Lemma mirror_loop (n1 n2 : string) (n : nat) :
  forall h0 x y g, (exists h0', h0 = h0' ++ [mkRound x y]) ->
  exists c,
    play_loop nextMove (mkPlayer n1 STitForTat) (mkPlayer n2 STitForTat) n h0 g
    = Some (h0 ++ alternate y x n, c, g).
Proof.
  induction n as [|n IH]; intros h0 x y g [h0' Hh0].
  - exists []. simpl. now rewrite app_nil_r.
  - rewrite play_loop_S. subst h0.
    rewrite (proj1 (TitForTat_nextMove_last n1 h0' (mkRound x y) g)).
    rewrite (proj2 (TitForTat_nextMove_last n2 h0' (mkRound x y) g)). simpl.
    destruct (IH ((h0' ++ [mkRound x y]) ++ [mkRound y x]) y x g)
      as [c E]; [eauto|].
    rewrite E. eexists. f_equal. f_equal. f_equal.
    rewrite <- app_assoc. reflexivity.
Qed.

Lemma alternate_length (x y : Move) (n : nat) : List.length (alternate x y n) = n.
Proof. revert x y; induction n; intros x y; simpl; auto. Qed.

Lemma alternate_nth (n : nat) :
  forall x y i d, (i < n)%nat ->
  nth i (alternate x y n) d = if Nat.even i then mkRound x y else mkRound y x.
Proof.
  induction n as [|n IH]; intros x y i d Hi; [lia|].
  destruct i as [|i]; [reflexivity|].
  change (nth (S i) (alternate x y (S n)) d) with (nth i (alternate y x n) d).
  rewrite (IH y x i d) by lia.
  rewrite Nat.even_succ, <- Nat.negb_even.
  destruct (Nat.even i); reflexivity.
Qed.

Lemma nth_score_rounds (l : list Round) (i : nat) (d : Round) :
  (i < List.length l)%nat ->
  nth i (map (fun r => score (p1 r) (p2 r)) l) 0 = score (p1 (nth i l d)) (p2 (nth i l d)).
Proof.
  revert i; induction l as [|r l IH]; intros i Hi; simpl in Hi; [lia|].
  destruct i as [|i]; [reflexivity|]. simpl. apply IH. lia.
Qed.

(** Two Mirror (TitForTat) players, for any match length n+1: round 0 is
    (a, b) from two draws, then the players swap moves every round, so the
    log is (a, b), (b, a), (a, b), ...; only those two draws are consumed;
    round i scores score(a, b) for even i and -score(a, b) for odd i. *)
Theorem Mirror_match_any_length (n1 n2 : string) (n : nat) (g : Rng) :
  let a := moveOfDraw (g 0%nat) in
  let b := moveOfDraw (g 1%nat) in
  (exists c,
     play_loop nextMove (mkPlayer n1 STitForTat) (mkPlayer n2 STitForTat) (S n) [] g
     = Some (alternate a b (S n), c, fun k => g (S (S k)))) /\
  forall i, (i < S n)%nat ->
    nth i (score_rounds (alternate a b (S n))) 0
    = if Nat.even i then score a b else - score a b.
Proof.
  intros a b. split.
  - rewrite play_loop_S. simpl.
    match goal with
    | |- context [play_loop _ _ _ n ?hh ?ss] =>
        destruct (mirror_loop n1 n2 n hh a b ss) as [c E];
          [exists []; reflexivity|]; rewrite E
    end.
    eexists. reflexivity.
  - intros i Hi. rewrite score_rounds_map.
    rewrite (nth_score_rounds _ i (mkRound Rock Rock))
      by (rewrite alternate_length; exact Hi).
    rewrite alternate_nth by exact Hi.
    destruct (Nat.even i); [reflexivity|].
    simpl. destruct a, b; reflexivity.
Qed.
